(** * base_definitions.h

    A shallow embedding of the utility macros and of the two enumerations
    of [base_definitions.h], and the properties its specification states
    about them.

    Conventions.  An [unsigned int] is 32 bits wide ([UINT_MAX = 2^32 - 1]).
    An integer is a [Z]: the value itself, so that [Z.land], [Z.lor] and
    [Z.lxor] act on its two's complement bits.  The macros are expanded at
    operands of one arithmetic type, so comparisons are the mathematical
    ones and only arithmetic on [unsigned int] wraps.  Conversion to a
    signed type wraps as well.  An operation the C standard leaves undefined
    yields [None]. *)

From Stdlib Require Import ZArith List String Bool Lia.
From Stdlib Require Import Sorted.
Import ListNotations.
Local Open Scope Z_scope.

(** ** Machine integers *)

Definition UINT_BIT : Z := 32.
Definition UINT_MAX : Z := 2 ^ UINT_BIT - 1.

(** Conversion to [unsigned int]: reduction modulo [UINT_MAX + 1]. *)
Definition to_uint (x : Z) : Z := x mod 2 ^ UINT_BIT.

(** An integer type: its signedness and its width in bits. *)
Record int_type : Type := IntType {
  it_signed : bool;
  it_bits : Z
}.

Definition uint8_t : int_type := IntType false 8.
Definition uint16_t : int_type := IntType false 16.
Definition uint32_t : int_type := IntType false 32.
Definition uint64_t : int_type := IntType false 64.
Definition int8_t : int_type := IntType true 8.
Definition int16_t : int_type := IntType true 16.
Definition int32_t : int_type := IntType true 32.
Definition int64_t : int_type := IntType true 64.

(** The values of an integer type. *)
Definition in_range (t : int_type) (x : Z) : Prop :=
  if it_signed t
  then - 2 ^ (it_bits t - 1) <= x < 2 ^ (it_bits t - 1)
  else 0 <= x < 2 ^ it_bits t.

(** Conversion to an integer type (what an assignment to an object of that
    type stores): the value of the type congruent modulo [2 ^ it_bits]. *)
Definition convert (t : int_type) (x : Z) : Z :=
  if it_signed t
  then (x + 2 ^ (it_bits t - 1)) mod 2 ^ it_bits t - 2 ^ (it_bits t - 1)
  else x mod 2 ^ it_bits t.

(** [~m] on an [unsigned int]. *)
Definition uint_not (m : Z) : Z := to_uint (Z.lnot m).

(** A small error monad for operations with undefined cases. *)
Definition bind {A B : Type} (c : option A) (k : A -> option B) : option B :=
  match c with
  | Some a => k a
  | None => None
  end.

Notation "x <- c ;; k" := (bind c (fun x => k))
  (at level 61, c at next level, right associativity).

(** ** Timeout *)

(** [iTIMEOUT(start, current, timeout)], at [unsigned int] operands:
    [(((start) < (current) ? (start) - (UINT_MAX - (current))
                           : (start) - (current)) < (timeout) ? 0 : 1)]. *)
Definition iTIMEOUT (start current timeout : Z) : Z :=
  if (if start <? current
      then to_uint (start - to_uint (UINT_MAX - current))
      else to_uint (start - current)) <? timeout
  then 0 else 1.

(** The elapsed time as the specification words it: the plain difference
    when [start <= current], the difference on the ring of size
    [UINT_MAX + 1] when the counter has wrapped. *)
Definition elapsed_spec (start current : Z) : Z :=
  if start <=? current then current - start
  else (current - start) mod 2 ^ UINT_BIT.

(** Expiry as the specification words it: expired iff [elapsed >= timeout]. *)
Definition timeout_expired_spec (start current timeout : Z) : bool :=
  timeout <=? elapsed_spec start current.

(** ** Minimum, maximum, clamp *)

(** [MIN(a, b)] is [((a) < (b) ? (a) : (b))]. *)
Definition MIN (a b : Z) : Z := if a <? b then a else b.

(** [MAX(a, b)] is [((a) > (b) ? (a) : (b))]. *)
Definition MAX (a b : Z) : Z := if a >? b then a else b.

(** [CLAMP(val, min, max)] is [(MAX((min), MIN((val), (max))))]. *)
Definition CLAMP (val min max : Z) : Z := MAX min (MIN val max).

(** ** Bit operations *)

(** [1U << bit].  The left operand is an [unsigned int]; the shift is
    undefined when [bit] is negative or not less than its width. *)
Definition shl_1U (bit : Z) : option Z :=
  if (0 <=? bit) && (bit <? UINT_BIT) then Some (Z.shiftl 1 bit) else None.

(** [SET_BIT(var, bit)] is [((var) |= (1U << (bit)))], on a variable of
    type [t]; the result is the value stored in [var]. *)
Definition SET_BIT (t : int_type) (var bit : Z) : option Z :=
  m <- shl_1U bit ;; Some (convert t (Z.lor var m)).

(** [CLEAR_BIT(var, bit)] is [((var) &= ~(1U << (bit)))]: the complement is
    taken on the [unsigned int] mask, before any widening to [var]'s type. *)
Definition CLEAR_BIT (t : int_type) (var bit : Z) : option Z :=
  m <- shl_1U bit ;; Some (convert t (Z.land var (uint_not m))).

(** [TOGGLE_BIT(var, bit)] is [((var) ^= (1U << (bit)))]. *)
Definition TOGGLE_BIT (t : int_type) (var bit : Z) : option Z :=
  m <- shl_1U bit ;; Some (convert t (Z.lxor var m)).

(** [IS_BIT_SET(var, bit)] is [(((var) & (1U << (bit))) != 0)]. *)
Definition IS_BIT_SET (var bit : Z) : option bool :=
  m <- shl_1U bit ;; Some (negb (Z.land var m =? 0)).

(** [IS_BIT_CLEAR(var, bit)] is [(((var) & (1U << (bit))) == 0)]. *)
Definition IS_BIT_CLEAR (var bit : Z) : option bool :=
  m <- shl_1U bit ;; Some (Z.land var m =? 0).

(** ** Array length *)

(** Object types as far as [sizeof] sees them: a non-array object type with
    its size in bytes, a pointer (with the size of the pointer itself), and
    an array of a constant, positive number of elements. *)
Inductive ctype : Type :=
| Tobject (size : positive)
| Tpointer (size : positive) (target : ctype)
| Tarray (elt : ctype) (len : positive).

Fixpoint sizeof (t : ctype) : Z :=
  match t with
  | Tobject size => Z.pos size
  | Tpointer size _ => Z.pos size
  | Tarray elt len => Z.pos len * sizeof elt
  end.

(** The type of [(arr)[0]]: subscripting applies to arrays and pointers. *)
Definition subscript0 (t : ctype) : option ctype :=
  match t with
  | Tobject _ => None
  | Tpointer _ target => Some target
  | Tarray elt _ => Some elt
  end.

(** [ARRAY_SIZE(arr)] is [(sizeof(arr) / sizeof((arr)[0]))], for [arr] of
    type [t]. *)
Definition ARRAY_SIZE (t : ctype) : option Z :=
  elt <- subscript0 t ;; Some (sizeof t / sizeof elt).

(** ** Status codes *)

(** The groups of [i_status], after the comments that head them. *)
Inductive status_group : Type :=
| GeneralStatus
| MemoryAndAlignment
| AccessAndPermissions
| ActivityStates
| DebugAndWarnings
| ReservedForFutureUse.

(** One enumerator of [i_status]. *)
Record enumerator : Type := Enumerator {
  e_group : status_group;
  e_name : string;
  e_value : Z
}.

(** The enumerator list of [i_status], in declaration order.  It is a list
    and not an inductive type because the declaration repeats a name. *)
Definition i_status : list enumerator :=
  [ Enumerator GeneralStatus "STATUS_OK" 0x01;
    Enumerator GeneralStatus "STATUS_ERROR" 0x02;
    Enumerator GeneralStatus "STATUS_TIMEOUT" 0x03;
    Enumerator GeneralStatus "STATUS_BUSY" 0x04;
    Enumerator GeneralStatus "STATUS_IDLE" 0x05;
    Enumerator GeneralStatus "STATUS_NOT_FOUND" 0x06;
    Enumerator GeneralStatus "STATUS_UNSUPPORTED" 0x07;
    Enumerator GeneralStatus "STATUS_INITIALIZED" 0x08;
    Enumerator GeneralStatus "STATUS_NOT_INITIALIZED" 0x09;
    Enumerator GeneralStatus "STATUS_IN_PROGRESS" 0x0A;
    Enumerator GeneralStatus "STATUS_COMPLETED" 0x0B;
    Enumerator MemoryAndAlignment "STATUS_MEM_ALIGNED" 0x10;
    Enumerator MemoryAndAlignment "STATUS_MEM_UNALIGNED" 0x11;
    Enumerator MemoryAndAlignment "STATUS_MEM_FULL" 0x12;
    Enumerator MemoryAndAlignment "STATUS_MEM_EMPTY" 0x13;
    Enumerator MemoryAndAlignment "STATUS_OVERFLOW" 0x14;
    Enumerator MemoryAndAlignment "STATUS_UNDERFLOW" 0x15;
    Enumerator AccessAndPermissions "STATUS_ACCESS_GRANTED" 0x20;
    Enumerator AccessAndPermissions "STATUS_ACCESS_DENIED" 0x21;
    Enumerator AccessAndPermissions "STATUS_LOCKED" 0x22;
    Enumerator AccessAndPermissions "STATUS_UNLOCKED" 0x23;
    Enumerator ActivityStates "STATUS_ACTIVE" 0x30;
    Enumerator ActivityStates "STATUS_INACTIVE" 0x31;
    Enumerator ActivityStates "STATUS_STOPPED" 0x32;
    Enumerator ActivityStates "STATUS_RUNNING" 0x33;
    Enumerator ActivityStates "STATUS_SLEEPING" 0x34;
    Enumerator ActivityStates "STATUS_STANDBY" 0x35;
    Enumerator ActivityStates "STATUS_NOT_READY" 0x36;
    Enumerator ActivityStates "STATUS_BUSY" 0x37;
    Enumerator DebugAndWarnings "STATUS_WARNING" 0x40;
    Enumerator DebugAndWarnings "STATUS_SELF_TEST_PASS" 0xC0;
    Enumerator DebugAndWarnings "STATUS_SELF_TEST_FAIL" 0xC1;
    Enumerator DebugAndWarnings "STATUS_DEBUG_1" 0xE1;
    Enumerator DebugAndWarnings "STATUS_DEBUG_2" 0xE2;
    Enumerator DebugAndWarnings "STATUS_DEBUG_3" 0xE3;
    Enumerator ReservedForFutureUse "STATUS_NOT_IMPLEMENTED" 0xFD;
    Enumerator ReservedForFutureUse "STATUS_UNKNOWN" 0xFE ].

(** The values the declaration gives to a name, in declaration order. *)
Definition values_of (name : string) (l : list enumerator) : list Z :=
  map e_value (filter (fun e => String.eqb (e_name e) name) l).

(** Every name has one value: two enumerators of one name agree. *)
Definition single_valued (l : list enumerator) : Prop :=
  forall e1 e2, In e1 l -> In e2 l -> e_name e1 = e_name e2 ->
                e_value e1 = e_value e2.

(** Enumerators of distinct names have distinct values. *)
Definition distinct_codes (l : list enumerator) : Prop :=
  forall e1 e2, In e1 l -> In e2 l -> e_name e1 <> e_name e2 ->
                e_value e1 <> e_value e2.

(** Modelled from the spec: the numeric band the data model assigns to each
    group (the header gives the groups only as comments, not their ranges). *)
Definition in_band (g : status_group) (v : Z) : bool :=
  match g with
  | GeneralStatus => (0x01 <=? v) && (v <=? 0x0B)
  | MemoryAndAlignment => (0x10 <=? v) && (v <=? 0x15)
  | AccessAndPermissions => (0x20 <=? v) && (v <=? 0x23)
  | ActivityStates => (0x30 <=? v) && (v <=? 0x37)
  | DebugAndWarnings =>
      (v =? 0x40) || ((0xC0 <=? v) && (v <=? 0xC1))
      || ((0xE1 <=? v) && (v <=? 0xE3))
  | ReservedForFutureUse => (0xFD <=? v) && (v <=? 0xFE)
  end.

(** A value fits in one byte. *)
Definition fits_byte (v : Z) : bool := (0 <=? v) && (v <=? 0xFF).

(** ** Variable type tags *)

Inductive var_type : Type :=
| VAR_TYPE_U8
| VAR_TYPE_I8
| VAR_TYPE_U16
| VAR_TYPE_I16
| VAR_TYPE_U32
| VAR_TYPE_I32
| VAR_TYPE_U64
| VAR_TYPE_I64
| VAR_TYPE_U8_ARR
| VAR_TYPE_I8_ARR
| VAR_TYPE_U16_ARR
| VAR_TYPE_I16_ARR
| VAR_TYPE_U32_ARR
| VAR_TYPE_I32_ARR
| VAR_TYPE_U64_ARR
| VAR_TYPE_I64_ARR.

(** The enumeration constants of [var_type]. *)
Definition var_type_value (t : var_type) : Z :=
  match t with
  | VAR_TYPE_U8 => 0x01
  | VAR_TYPE_I8 => 0x11
  | VAR_TYPE_U16 => 0x02
  | VAR_TYPE_I16 => 0x12
  | VAR_TYPE_U32 => 0x04
  | VAR_TYPE_I32 => 0x14
  | VAR_TYPE_U64 => 0x08
  | VAR_TYPE_I64 => 0x18
  | VAR_TYPE_U8_ARR => 0x21
  | VAR_TYPE_I8_ARR => 0x31
  | VAR_TYPE_U16_ARR => 0x22
  | VAR_TYPE_I16_ARR => 0x32
  | VAR_TYPE_U32_ARR => 0x24
  | VAR_TYPE_I32_ARR => 0x34
  | VAR_TYPE_U64_ARR => 0x28
  | VAR_TYPE_I64_ARR => 0x38
  end.

(** What each name documents (the comment beside it): the width of the
    integer in bytes, whether it is signed, whether it is an array. *)
Definition name_width (t : var_type) : Z :=
  match t with
  | VAR_TYPE_U8 | VAR_TYPE_I8 | VAR_TYPE_U8_ARR | VAR_TYPE_I8_ARR => 1
  | VAR_TYPE_U16 | VAR_TYPE_I16 | VAR_TYPE_U16_ARR | VAR_TYPE_I16_ARR => 2
  | VAR_TYPE_U32 | VAR_TYPE_I32 | VAR_TYPE_U32_ARR | VAR_TYPE_I32_ARR => 4
  | VAR_TYPE_U64 | VAR_TYPE_I64 | VAR_TYPE_U64_ARR | VAR_TYPE_I64_ARR => 8
  end.

Definition name_signed (t : var_type) : bool :=
  match t with
  | VAR_TYPE_I8 | VAR_TYPE_I16 | VAR_TYPE_I32 | VAR_TYPE_I64
  | VAR_TYPE_I8_ARR | VAR_TYPE_I16_ARR | VAR_TYPE_I32_ARR
  | VAR_TYPE_I64_ARR => true
  | _ => false
  end.

Definition name_array (t : var_type) : bool :=
  match t with
  | VAR_TYPE_U8_ARR | VAR_TYPE_I8_ARR | VAR_TYPE_U16_ARR | VAR_TYPE_I16_ARR
  | VAR_TYPE_U32_ARR | VAR_TYPE_I32_ARR | VAR_TYPE_U64_ARR
  | VAR_TYPE_I64_ARR => true
  | _ => false
  end.

(** Modelled from the spec: decode-width, which the header does not
    define; the low nibble of the raw tag value. *)
Definition decode_width (v : Z) : Z := Z.land v 0x0F.

(** Modelled from the spec: decode-signed, which the header does not
    define; bit 0x10 of the raw tag value. *)
Definition decode_signed (v : Z) : bool := negb (Z.land v 0x10 =? 0).

(** Modelled from the spec: decode-array, which the header does not
    define; bit 0x20 of the raw tag value. *)
Definition decode_array (v : Z) : bool := negb (Z.land v 0x20 =? 0).

(** * Properties *)

(** ** Timeout *)

Lemma to_uint_range (x : Z) : 0 <= to_uint x <= UINT_MAX.
Proof.
  unfold to_uint, UINT_MAX.
  pose proof (Z.mod_pos_bound x (2 ^ UINT_BIT) ltac:(reflexivity)). lia.
Qed.

Lemma to_uint_small (x : Z) : 0 <= x <= UINT_MAX -> to_uint x = x.
Proof.
  unfold to_uint, UINT_MAX. intros H. apply Z.mod_small. lia.
Qed.

(** What the macro computes as elapsed time, in closed form: when
    [start < current] it is [start + current + 1] on the ring, otherwise
    [start - current]; [current - start] appears in neither branch. *)
Lemma iTIMEOUT_closed_form (start current timeout : Z) :
  0 <= start <= UINT_MAX -> 0 <= current <= UINT_MAX ->
  iTIMEOUT start current timeout =
    if (if start <? current
        then (start + current + 1) mod 2 ^ UINT_BIT
        else start - current) <? timeout
    then 0 else 1.
Proof.
  intros Hs Hc. unfold iTIMEOUT.
  destruct (start <? current) eqn:E.
  - rewrite (to_uint_small (UINT_MAX - current)) by lia.
    unfold to_uint.
    replace (start - (UINT_MAX - current))
      with (start + current + 1 + (-1) * 2 ^ UINT_BIT)
      by (unfold UINT_MAX; ring).
    rewrite Z.mod_add by discriminate. reflexivity.
  - apply Z.ltb_ge in E. rewrite to_uint_small by lia. reflexivity.
Qed.

(** C1 (code and specification part ways).  On the specification's own
    examples the macro answers 1 (expired) every time: at
    [(100, 150, 40)], where expiry is expected; at [(100, 130, 40)], where
    the elapsed time 30 is below the timeout; and at the wrapped counter
    [(2^32 - 10, 5, 20)], where the elapsed time is 15.  The specification's
    reading of the same inputs is given beside each. *)
Theorem iTIMEOUT_spec_examples :
  iTIMEOUT 100 150 40 = 1 /\ timeout_expired_spec 100 150 40 = true /\
  iTIMEOUT 100 130 40 = 1 /\ timeout_expired_spec 100 130 40 = false /\
  elapsed_spec (2 ^ 32 - 10) 5 = 15 /\
  iTIMEOUT (2 ^ 32 - 10) 5 20 = 1 /\
  timeout_expired_spec (2 ^ 32 - 10) 5 20 = false.
Proof. repeat split; vm_compute; reflexivity. Qed.

(** ** Minimum, maximum, clamp *)

Lemma MIN_min (a b : Z) : MIN a b = Z.min a b.
Proof. unfold MIN. destruct (Z.ltb_spec a b); lia. Qed.

Lemma MAX_max (a b : Z) : MAX a b = Z.max a b.
Proof.
  unfold MAX. rewrite Z.gtb_ltb. destruct (Z.ltb_spec b a); lia.
Qed.

(** C7.  [MIN] returns one of its operands, below both; [MAX] returns one
    of its operands, above both; on equal operands each returns the common
    value. *)
Theorem MIN_MAX_spec (a b : Z) :
  (MIN a b = a \/ MIN a b = b) /\ MIN a b <= a /\ MIN a b <= b /\
  (MAX a b = a \/ MAX a b = b) /\ a <= MAX a b /\ b <= MAX a b /\
  MIN a a = a /\ MAX a a = a.
Proof. rewrite !MIN_min, !MAX_max. lia. Qed.

(** C5.  With [lo <= hi], [CLAMP] returns [lo] below the range, [hi] above
    it and the value itself inside it. *)
Theorem CLAMP_spec (v lo hi : Z) :
  lo <= hi ->
  (v < lo -> CLAMP v lo hi = lo) /\
  (v > hi -> CLAMP v lo hi = hi) /\
  (lo <= v <= hi -> CLAMP v lo hi = v).
Proof. intros H. unfold CLAMP. rewrite MAX_max, MIN_min. lia. Qed.

Lemma CLAMP_spec_witness :
  0 <= 3 /\ CLAMP (-2) 0 3 = 0 /\ CLAMP 5 0 3 = 3 /\ CLAMP 2 0 3 = 2.
Proof.
  split; [lia |]. split; [| split].
  - apply (CLAMP_spec (-2) 0 3); lia.
  - apply (CLAMP_spec 5 0 3); lia.
  - apply (CLAMP_spec 2 0 3); lia.
Defined.

(** Outside the precondition the macro returns [lo] whatever the value. *)
Lemma CLAMP_inverted_range (v lo hi : Z) : hi < lo -> CLAMP v lo hi = lo.
Proof. intros H. unfold CLAMP. rewrite MAX_max, MIN_min. lia. Qed.

(** ** Array length *)

Lemma sizeof_pos (t : ctype) : 0 < sizeof t.
Proof.
  induction t as [size | size target IH | elt IH len].
  - reflexivity.
  - reflexivity.
  - change (0 < Z.pos len * sizeof elt).
    apply Z.mul_pos_pos; [reflexivity | exact IH].
Qed.

(** C8.  On an array of [len] elements the macro yields [len], whatever the
    element type; in particular 7 on an array of 7 elements. *)
Theorem ARRAY_SIZE_length (elt : ctype) (len : positive) :
  ARRAY_SIZE (Tarray elt len) = Some (Z.pos len) /\
  ARRAY_SIZE (Tarray elt 7) = Some 7.
Proof.
  pose proof (sizeof_pos elt) as Hpos.
  unfold ARRAY_SIZE, bind, subscript0.
  split; f_equal;
    (change (sizeof (Tarray elt ?n)) with (Z.pos n * sizeof elt));
    apply Z.div_mul; lia.
Qed.

(** On a pointer the quotient is unrelated to any element count. *)
Example ARRAY_SIZE_pointer :
  ARRAY_SIZE (Tpointer 8 (Tobject 4)) = Some 2 /\
  ARRAY_SIZE (Tpointer 4 (Tobject 8)) = Some 0.
Proof. split; reflexivity. Qed.

(** ** Bit operations *)

Lemma shl_1U_defined (bit : Z) :
  0 <= bit < UINT_BIT -> shl_1U bit = Some (2 ^ bit).
Proof.
  intros [H0 H1]. unfold shl_1U.
  apply Z.leb_le in H0. apply Z.ltb_lt in H1. rewrite H0, H1. simpl.
  now rewrite Z.shiftl_1_l.
Qed.

Lemma shl_1U_undefined (bit : Z) :
  bit < 0 \/ UINT_BIT <= bit -> shl_1U bit = None.
Proof.
  intros H. unfold shl_1U.
  destruct (Z.leb_spec 0 bit); destruct (Z.ltb_spec bit UINT_BIT);
    simpl; try reflexivity; lia.
Qed.

(** Testing a word against a one-bit mask reads that bit. *)
Lemma land_pow2_eqb (x i : Z) :
  0 <= i -> (Z.land x (2 ^ i) =? 0) = negb (Z.testbit x i).
Proof.
  intros Hi. destruct (Z.testbit x i) eqn:E; simpl.
  - apply Z.eqb_neq. intros H.
    assert (Hb : Z.testbit (Z.land x (2 ^ i)) i = true)
      by (rewrite Z.land_spec, E, Z.pow2_bits_true; auto).
    rewrite H, Z.bits_0 in Hb. discriminate.
  - apply Z.eqb_eq. apply Z.bits_inj'. intros n Hn.
    rewrite Z.land_spec, Z.bits_0.
    destruct (Z.eq_dec i n) as [-> | Hne].
    + now rewrite E.
    + rewrite (Z.pow2_bits_false i n) by assumption.
      apply andb_false_r.
Qed.

Lemma pow2_bits_split (w : Z) : 0 < w -> 2 ^ w = 2 * 2 ^ (w - 1).
Proof.
  intros Hw. replace w with (Z.succ (w - 1)) at 1 by lia.
  apply Z.pow_succ_r. lia.
Qed.

Lemma mod_pow2_testbit (w x n : Z) :
  0 <= w -> 0 <= n ->
  Z.testbit (x mod 2 ^ w) n = (n <? w) && Z.testbit x n.
Proof.
  intros Hw Hn. destruct (Z.ltb_spec n w); cbn [andb].
  - apply Z.mod_pow2_bits_low. assumption.
  - apply Z.mod_pow2_bits_high. lia.
Qed.

(** ** Conversion to an integer type *)

Section Convert.

Variable t : int_type.
Hypothesis bits_pos : 0 < it_bits t.

Lemma convert_mod (x : Z) :
  convert t x mod 2 ^ it_bits t = x mod 2 ^ it_bits t.
Proof.
  unfold convert. destruct (it_signed t).
  - rewrite Zminus_mod_idemp_l. f_equal. ring.
  - apply Z.mod_mod. apply Z.pow_nonzero; lia.
Qed.

Lemma convert_testbit (x n : Z) :
  0 <= n < it_bits t -> Z.testbit (convert t x) n = Z.testbit x n.
Proof.
  intros Hn.
  rewrite <- (Z.mod_pow2_bits_low (convert t x) (it_bits t) n) by lia.
  rewrite convert_mod. apply Z.mod_pow2_bits_low. lia.
Qed.

Lemma convert_in_range (x : Z) : in_range t (convert t x).
Proof.
  unfold in_range, convert.
  pose proof (pow2_bits_split (it_bits t) bits_pos) as Hsplit.
  assert (Hpos : 0 < 2 ^ it_bits t) by (apply Z.pow_pos_nonneg; lia).
  destruct (it_signed t).
  - pose proof (Z.mod_pos_bound (x + 2 ^ (it_bits t - 1)) _ Hpos). lia.
  - apply Z.mod_pos_bound. assumption.
Qed.

Lemma convert_id (x : Z) : in_range t x -> convert t x = x.
Proof.
  unfold in_range, convert.
  pose proof (pow2_bits_split (it_bits t) bits_pos) as Hsplit.
  destruct (it_signed t); intros Hx.
  - rewrite Z.mod_small by lia. ring.
  - apply Z.mod_small. assumption.
Qed.

Lemma convert_congr (x y : Z) :
  x mod 2 ^ it_bits t = y mod 2 ^ it_bits t -> convert t x = convert t y.
Proof.
  intros H. unfold convert. destruct (it_signed t).
  - rewrite <- (Zplus_mod_idemp_l x), H, Zplus_mod_idemp_l. reflexivity.
  - assumption.
Qed.

End Convert.

(** ** The five bit macros *)

(** The complement of an [unsigned int] flips its 32 bits and has none
    above them. *)
Lemma uint_not_testbit (m n : Z) :
  0 <= n ->
  Z.testbit (uint_not m) n = (n <? UINT_BIT) && negb (Z.testbit m n).
Proof.
  intros Hn. unfold uint_not, to_uint.
  rewrite mod_pow2_testbit by (unfold UINT_BIT; lia).
  destruct (n <? UINT_BIT); cbn [andb]; [| reflexivity].
  now apply Z.lnot_spec.
Qed.

Lemma SET_BIT_testbit (t : int_type) (var bit v : Z) :
  0 <= bit < it_bits t ->
  SET_BIT t var bit = Some v -> Z.testbit v bit = true.
Proof.
  intros Hb. unfold SET_BIT.
  destruct (Z.ltb_spec bit UINT_BIT) as [Hlt | Hge].
  - rewrite shl_1U_defined by lia. cbn [bind]. intros [= <-].
    rewrite convert_testbit, Z.lor_spec, Z.pow2_bits_true by lia.
    apply orb_true_r.
  - rewrite shl_1U_undefined by lia. discriminate.
Qed.

Lemma CLEAR_BIT_testbit (t : int_type) (var bit v : Z) :
  0 <= bit < it_bits t ->
  CLEAR_BIT t var bit = Some v -> Z.testbit v bit = false.
Proof.
  intros Hb. unfold CLEAR_BIT.
  destruct (Z.ltb_spec bit UINT_BIT) as [Hlt | Hge].
  - rewrite shl_1U_defined by lia. cbn [bind]. intros [= <-].
    rewrite convert_testbit, Z.land_spec, uint_not_testbit by lia.
    rewrite Z.pow2_bits_true by lia. cbn [negb].
    now rewrite !andb_false_r.
  - rewrite shl_1U_undefined by lia. discriminate.
Qed.

Lemma TOGGLE_BIT_involutive (t : int_type) (var bit v : Z) :
  0 < it_bits t -> in_range t var ->
  TOGGLE_BIT t var bit = Some v -> TOGGLE_BIT t v bit = Some var.
Proof.
  intros Hw Hv. unfold TOGGLE_BIT.
  destruct (shl_1U bit) as [m |]; cbn [bind]; [| discriminate].
  intros [= <-]. f_equal.
  rewrite <- (convert_id t Hw var Hv) at 2.
  apply convert_congr. apply Z.bits_inj'. intros n Hn.
  rewrite !mod_pow2_testbit by lia.
  destruct (Z.ltb_spec n (it_bits t)); cbn [andb]; [| reflexivity].
  rewrite Z.lxor_spec, convert_testbit, Z.lxor_spec by lia.
  now rewrite xorb_assoc, xorb_nilpotent, xorb_false_r.
Qed.

(** C4, as amended: the index is also below the 32 bits of the mask.  Then
    a bit just set tests as set, a bit just cleared tests as clear, and
    toggling twice restores the word. *)
Theorem bit_roundtrip (t : int_type) (var bit : Z) :
  in_range t var -> 0 <= bit < it_bits t -> bit < UINT_BIT ->
  (v <- SET_BIT t var bit ;; IS_BIT_SET v bit) = Some true /\
  (v <- CLEAR_BIT t var bit ;; IS_BIT_CLEAR v bit) = Some true /\
  (v <- TOGGLE_BIT t var bit ;; TOGGLE_BIT t v bit) = Some var.
Proof.
  intros Hv Hb H32.
  assert (Hm : shl_1U bit = Some (2 ^ bit)) by (apply shl_1U_defined; lia).
  split; [| split].
  - destruct (SET_BIT t var bit) as [v |] eqn:E;
      [| unfold SET_BIT in E; rewrite Hm in E; discriminate].
    cbn [bind]. unfold IS_BIT_SET. rewrite Hm. cbn [bind].
    rewrite land_pow2_eqb by lia.
    now rewrite (SET_BIT_testbit t var bit v).
  - destruct (CLEAR_BIT t var bit) as [v |] eqn:E;
      [| unfold CLEAR_BIT in E; rewrite Hm in E; discriminate].
    cbn [bind]. unfold IS_BIT_CLEAR. rewrite Hm. cbn [bind].
    rewrite land_pow2_eqb by lia.
    now rewrite (CLEAR_BIT_testbit t var bit v).
  - destruct (TOGGLE_BIT t var bit) as [v |] eqn:E;
      [| unfold TOGGLE_BIT in E; rewrite Hm in E; discriminate].
    cbn [bind]. apply (TOGGLE_BIT_involutive t var bit v); [lia | assumption ..].
Qed.

Lemma bit_roundtrip_witness :
  (v <- SET_BIT uint64_t 0 31 ;; IS_BIT_SET v 31) = Some true /\
  (v <- CLEAR_BIT uint64_t (2 ^ 31) 31 ;; IS_BIT_CLEAR v 31) = Some true /\
  (v <- TOGGLE_BIT int8_t (-91) 7 ;; TOGGLE_BIT int8_t v 7) = Some (-91).
Proof.
  split; [| split].
  - apply (bit_roundtrip uint64_t 0 31);
      [vm_compute; intuition discriminate | vm_compute; intuition discriminate
       | reflexivity].
  - apply (bit_roundtrip uint64_t (2 ^ 31) 31);
      [vm_compute; intuition discriminate | vm_compute; intuition discriminate
       | reflexivity].
  - apply (bit_roundtrip int8_t (-91) 7);
      [vm_compute; intuition discriminate | vm_compute; intuition discriminate
       | reflexivity].
Defined.

(** C4 as stated fails: on a 64-bit word, index 32 is within the word's
    width, yet the shift that builds the mask is undefined there, so none
    of the three round trips delivers its result. *)
Lemma bit_roundtrip_counterexample :
  in_range uint64_t 0 /\ 0 <= 32 < it_bits uint64_t /\
  (v <- SET_BIT uint64_t 0 32 ;; IS_BIT_SET v 32) <> Some true /\
  (v <- CLEAR_BIT uint64_t 0 32 ;; IS_BIT_CLEAR v 32) <> Some true /\
  (v <- TOGGLE_BIT uint64_t 0 32 ;; TOGGLE_BIT uint64_t v 32) <> Some 0.
Proof.
  split; [vm_compute; intuition discriminate |].
  split; [vm_compute; intuition discriminate |].
  repeat split; vm_compute; discriminate.
Qed.

(** C9.  The mask is [1U << bit], an [unsigned int]: on a word wider than
    32 bits, an index from 32 up to the word's width makes the shift
    undefined and none of the five operations has a result; an index from 0
    to 31 gives each of them a result, whatever the width of the word. *)
Theorem bit_index_limit (t : int_type) (var bit : Z) :
  (UINT_BIT < it_bits t -> UINT_BIT <= bit < it_bits t ->
   SET_BIT t var bit = None /\ CLEAR_BIT t var bit = None /\
   TOGGLE_BIT t var bit = None /\
   IS_BIT_SET var bit = None /\ IS_BIT_CLEAR var bit = None) /\
  (0 <= bit < UINT_BIT ->
   SET_BIT t var bit = Some (convert t (Z.lor var (2 ^ bit))) /\
   CLEAR_BIT t var bit = Some (convert t (Z.land var (uint_not (2 ^ bit)))) /\
   TOGGLE_BIT t var bit = Some (convert t (Z.lxor var (2 ^ bit))) /\
   IS_BIT_SET var bit = Some (Z.testbit var bit) /\
   IS_BIT_CLEAR var bit = Some (negb (Z.testbit var bit))).
Proof.
  split.
  - intros _ Hb.
    unfold SET_BIT, CLEAR_BIT, TOGGLE_BIT, IS_BIT_SET, IS_BIT_CLEAR.
    rewrite shl_1U_undefined by lia. repeat split.
  - intros Hb.
    unfold SET_BIT, CLEAR_BIT, TOGGLE_BIT, IS_BIT_SET, IS_BIT_CLEAR.
    rewrite shl_1U_defined by assumption. cbn [bind].
    rewrite land_pow2_eqb by lia. rewrite negb_involutive.
    repeat split.
Qed.

Lemma bit_index_limit_witness :
  (SET_BIT uint64_t 1 40 = None /\ CLEAR_BIT uint64_t 1 40 = None /\
   TOGGLE_BIT uint64_t 1 40 = None /\
   IS_BIT_SET 1 40 = None /\ IS_BIT_CLEAR 1 40 = None) /\
  IS_BIT_SET (2 ^ 31) 31 = Some true.
Proof.
  split.
  - apply (bit_index_limit uint64_t 1 40);
      [reflexivity | vm_compute; intuition discriminate].
  - apply (bit_index_limit uint64_t (2 ^ 31) 31).
    vm_compute; intuition discriminate.
Defined.

(** C10.  For an index from 0 to 31 the two tests have results, and the
    results are opposite. *)
Theorem IS_BIT_SET_CLEAR_opposite (var bit : Z) :
  0 <= bit < UINT_BIT ->
  exists b : bool,
    IS_BIT_SET var bit = Some b /\ IS_BIT_CLEAR var bit = Some (negb b).
Proof.
  intros Hb. unfold IS_BIT_SET, IS_BIT_CLEAR.
  rewrite shl_1U_defined by assumption. cbn [bind].
  exists (negb (Z.land var (2 ^ bit) =? 0)).
  now rewrite negb_involutive.
Qed.

Lemma IS_BIT_SET_CLEAR_opposite_witness :
  exists b : bool,
    IS_BIT_SET 0xA5 2 = Some b /\ IS_BIT_CLEAR 0xA5 2 = Some (negb b).
Proof.
  apply (IS_BIT_SET_CLEAR_opposite 0xA5 2).
  vm_compute; intuition discriminate.
Defined.

(** The complement in [CLEAR_BIT] is a 32-bit value: and-ing it into a
    wider word also clears every bit of the word from 32 up. *)
Lemma CLEAR_BIT_high_bits (t : int_type) (var bit v n : Z) :
  CLEAR_BIT t var bit = Some v -> UINT_BIT <= n < it_bits t ->
  Z.testbit v n = false.
Proof.
  unfold CLEAR_BIT.
  destruct (shl_1U bit) as [m |]; cbn [bind]; [| discriminate].
  intros [= <-] Hn.
  assert (0 <= n) by (unfold UINT_BIT in Hn; lia).
  rewrite convert_testbit, Z.land_spec, uint_not_testbit by lia.
  replace (n <? UINT_BIT) with false by (symmetry; apply Z.ltb_ge; lia).
  cbn [andb]. apply andb_false_r.
Qed.

Example CLEAR_BIT_uint64_t : CLEAR_BIT uint64_t (2 ^ 40 + 3) 0 = Some 2.
Proof. reflexivity. Qed.

(** ** Status codes *)

Lemma NoDup_map_inj {A B : Type} (f : A -> B) (l : list A) (x y : A) :
  NoDup (map f l) -> In x l -> In y l -> f x = f y -> x = y.
Proof.
  induction l as [| a l IH]; simpl; [contradiction |].
  intros Hnd Hx Hy Hf. inversion Hnd as [| ? ? Hnotin Hnd']; subst.
  destruct Hx as [-> | Hx], Hy as [-> | Hy].
  - reflexivity.
  - exfalso. apply Hnotin. rewrite Hf. now apply in_map.
  - exfalso. apply Hnotin. rewrite <- Hf. now apply in_map.
  - now apply IH.
Qed.

(** The numeric values of the enumerators are pairwise distinct. *)
Lemma i_status_values_NoDup : NoDup (map e_value i_status).
Proof.
  unfold i_status. cbn [map e_value].
  repeat (apply NoDup_cons;
          [cbn [In]; intros H;
           repeat (destruct H as [H | H]; [discriminate H |]); exact H |]).
  apply NoDup_nil.
Qed.

(** Enumerators of different names never share a value. *)
Lemma i_status_distinct_codes : distinct_codes i_status.
Proof.
  intros e1 e2 H1 H2 Hname Hval. apply Hname. f_equal.
  apply (NoDup_map_inj e_value i_status);
    [exact i_status_values_NoDup | assumption ..].
Qed.

(** C2 (the declaration breaks the invariant).  The name [STATUS_BUSY] is
    declared twice, with the values 0x04 and 0x37, so the enumeration does
    not give every name exactly one value. *)
Theorem STATUS_BUSY_two_values :
  values_of "STATUS_BUSY" i_status = [0x04; 0x37] /\
  ~ single_valued i_status.
Proof.
  split; [reflexivity |].
  intros H.
  assert (E : 0x04 = 0x37).
  { apply (H (Enumerator GeneralStatus "STATUS_BUSY" 0x04)
             (Enumerator ActivityStates "STATUS_BUSY" 0x37)).
    - unfold i_status. cbn [In]. repeat (first [left; reflexivity | right]).
    - unfold i_status. cbn [In]. repeat (first [left; reflexivity | right]).
    - reflexivity. }
  discriminate E.
Qed.

Lemma i_status_bands_check :
  forallb (fun e => fits_byte (e_value e) && in_band (e_group e) (e_value e))
          i_status = true.
Proof. vm_compute. reflexivity. Qed.

(** C6.  Every enumerator of [i_status] fits in one byte and lies in the
    band of its group. *)
Theorem i_status_bands (e : enumerator) :
  In e i_status ->
  fits_byte (e_value e) = true /\ in_band (e_group e) (e_value e) = true.
Proof.
  intros H. apply andb_true_iff.
  exact (proj1 (forallb_forall _ _) i_status_bands_check e H).
Qed.

Lemma i_status_bands_witness :
  fits_byte 0x37 = true /\ in_band ActivityStates 0x37 = true.
Proof.
  apply (i_status_bands (Enumerator ActivityStates "STATUS_BUSY" 0x37)).
  unfold i_status. cbn [In].
  repeat (first [left; reflexivity | right]).
Defined.

(** ** Variable type tags *)

(** C3.  Distinct tags have distinct values, and masking a tag's value
    gives the facets its name documents: the low nibble is the width in
    bytes (1, 2, 4 or 8), bit 0x10 is the signedness, bit 0x20 the array
    marker; [VAR_TYPE_I32_ARR] is 0x34 and decodes to 4, signed, array. *)
Theorem var_type_encoding :
  (forall t1 t2 : var_type,
      t1 <> t2 -> var_type_value t1 <> var_type_value t2) /\
  (forall t : var_type,
      decode_width (var_type_value t) = name_width t /\
      In (name_width t) [1; 2; 4; 8] /\
      decode_signed (var_type_value t) = name_signed t /\
      decode_array (var_type_value t) = name_array t) /\
  (var_type_value VAR_TYPE_I32_ARR = 0x34 /\
   decode_width 0x34 = 4 /\
   decode_signed 0x34 = true /\ decode_array 0x34 = true).
Proof.
  split; [| split].
  - intros t1 t2 Hne Heq. apply Hne.
    destruct t1, t2; try reflexivity; discriminate Heq.
  - intros t. destruct t; cbn; intuition reflexivity.
  - repeat split.
Qed.

Lemma var_type_encoding_witness :
  var_type_value VAR_TYPE_U8 <> var_type_value VAR_TYPE_U8_ARR.
Proof.
  apply (proj1 var_type_encoding VAR_TYPE_U8 VAR_TYPE_U8_ARR).
  discriminate.
Defined.

(** * Further properties of the macros and of the enumerations *)

(** ** Timeout *)

(** X1.  What [iTIMEOUT] decides, for operands in the range of
    [unsigned int]: when [current <= start] it reports expiry exactly when
    [start - current] reaches the timeout; when [start < current] exactly
    when [start + current + 1], reduced modulo [2^32], does.  The result is
    always 0 or 1. *)
Theorem iTIMEOUT_expired_iff (start current timeout : Z) :
  0 <= start <= UINT_MAX -> 0 <= current <= UINT_MAX ->
  (current <= start ->
   (iTIMEOUT start current timeout = 1 <-> timeout <= start - current)) /\
  (start < current ->
   (iTIMEOUT start current timeout = 1 <->
    timeout <= (start + current + 1) mod 2 ^ UINT_BIT)) /\
  (iTIMEOUT start current timeout = 0 \/ iTIMEOUT start current timeout = 1).
Proof.
  intros Hs Hc. rewrite (iTIMEOUT_closed_form start current timeout Hs Hc).
  split; [| split].
  - intros Hle.
    replace (start <? current) with false by (symmetry; apply Z.ltb_ge; lia).
    destruct (Z.ltb_spec (start - current) timeout); split; intros; lia.
  - intros Hlt.
    replace (start <? current) with true by (symmetry; apply Z.ltb_lt; lia).
    destruct (Z.ltb_spec ((start + current + 1) mod 2 ^ UINT_BIT) timeout);
      split; intros; lia.
  - destruct (_ <? timeout); [left | right]; reflexivity.
Qed.

Lemma iTIMEOUT_expired_iff_witness :
  (iTIMEOUT 150 100 40 = 1 <-> 40 <= 150 - 100) /\
  (iTIMEOUT 100 130 40 = 1 <-> 40 <= (100 + 130 + 1) mod 2 ^ UINT_BIT).
Proof.
  split.
  - refine (proj1 (iTIMEOUT_expired_iff 150 100 40 _ _) _);
      first [lia | vm_compute; intuition discriminate].
  - refine (proj1 (proj2 (iTIMEOUT_expired_iff 100 130 40 _ _)) _);
      first [lia | vm_compute; intuition discriminate].
Defined.

(** X2.  A timeout of zero is expired at once, whatever the two
    counters. *)
Theorem iTIMEOUT_zero_timeout (start current : Z) :
  iTIMEOUT start current 0 = 1.
Proof.
  unfold iTIMEOUT.
  pose proof (to_uint_range (start - to_uint (UINT_MAX - current))).
  pose proof (to_uint_range (start - current)).
  destruct (start <? current);
    match goal with
    | |- (if ?x <? 0 then _ else _) = _ => destruct (Z.ltb_spec x 0)
    end; lia.
Qed.

(** ** Minimum, maximum, clamp *)

(** X3.  [MIN] and [MAX] do not depend on the order of their operands, the
    minimum is never above the maximum, and between them they return both
    operands: their sum is the sum of the operands. *)
Theorem MIN_MAX_algebra (a b : Z) :
  MIN a b = MIN b a /\ MAX a b = MAX b a /\
  MIN a b <= MAX a b /\ MIN a b + MAX a b = a + b.
Proof. rewrite !MIN_min, !MAX_max. lia. Qed.

(** X4.  With [lo <= hi] the result of [CLAMP] lies in the range. *)
Theorem CLAMP_in_range (v lo hi : Z) :
  lo <= hi -> lo <= CLAMP v lo hi <= hi.
Proof. intros H. unfold CLAMP. rewrite MAX_max, MIN_min. lia. Qed.

Lemma CLAMP_in_range_witness : 0 <= CLAMP 300 0 255 <= 255.
Proof. apply (CLAMP_in_range 300 0 255). lia. Defined.

(** X5.  With the bounds the wrong way round ([hi < lo]) [CLAMP] returns
    [lo] for every value, so the result is above [hi]. *)
Theorem CLAMP_swapped_bounds (v lo hi : Z) :
  hi < lo -> CLAMP v lo hi = lo /\ hi < CLAMP v lo hi.
Proof.
  intros H. rewrite (CLAMP_inverted_range v lo hi H). split; [reflexivity | lia].
Qed.

Lemma CLAMP_swapped_bounds_witness :
  CLAMP 5 10 0 = 10 /\ 0 < CLAMP 5 10 0.
Proof. apply (CLAMP_swapped_bounds 5 10 0). lia. Defined.

(** X6.  Clamping is idempotent and monotone in the value, for any two
    bounds. *)
Theorem CLAMP_idempotent_monotone (v v' lo hi : Z) :
  CLAMP (CLAMP v lo hi) lo hi = CLAMP v lo hi /\
  (v <= v' -> CLAMP v lo hi <= CLAMP v' lo hi).
Proof. unfold CLAMP. rewrite !MAX_max, !MIN_min. lia. Qed.

Lemma CLAMP_idempotent_monotone_witness :
  CLAMP 3 0 9 <= CLAMP 12 0 9.
Proof. apply (CLAMP_idempotent_monotone 3 12 0 9). lia. Defined.

(** ** Array length *)

(** X7.  On a pointer [ARRAY_SIZE] has a result too: the size of the
    pointer divided by the size of what it points to, rounded down.  It
    does not exceed the pointer's own size in bytes, however many elements
    the pointer leads to. *)
Theorem ARRAY_SIZE_of_pointer (size : positive) (target : ctype) :
  exists q : Z,
    ARRAY_SIZE (Tpointer size target) = Some q /\
    q * sizeof target <= Z.pos size < (q + 1) * sizeof target /\
    0 <= q <= Z.pos size.
Proof.
  pose proof (sizeof_pos target) as Hpos.
  exists (Z.pos size / sizeof target). split; [reflexivity |].
  pose proof (Z.mul_div_le (Z.pos size) (sizeof target) Hpos).
  pose proof (Z.mul_succ_div_gt (Z.pos size) (sizeof target) Hpos).
  pose proof (Z.div_pos (Z.pos size) (sizeof target) ltac:(lia) Hpos).
  pose proof (Z.div_le_upper_bound (Z.pos size) (sizeof target) (Z.pos size)
                Hpos ltac:(nia)).
  lia.
Qed.

(** ** Bit operations *)

Lemma shl_1U_Some (bit m : Z) :
  shl_1U bit = Some m -> 0 <= bit < UINT_BIT /\ m = 2 ^ bit.
Proof.
  intros H. destruct (Z.le_gt_cases 0 bit) as [H0 | H0];
    [destruct (Z.lt_ge_cases bit UINT_BIT) as [H1 | H1] |].
  - rewrite shl_1U_defined in H by lia. injection H as <-. lia.
  - rewrite shl_1U_undefined in H by lia. discriminate.
  - rewrite shl_1U_undefined in H by lia. discriminate.
Qed.

(** Case analysis on the mask of an index: either it is [2 ^ bit] with the
    index in range, or the shift is undefined. *)
Ltac mask_cases bit :=
  let m := fresh "m" in
  let E := fresh "E" in
  let Hb := fresh "Hb" in
  destruct (shl_1U bit) as [m |] eqn:E;
  [apply shl_1U_Some in E; destruct E as [Hb ->] |];
  cbn [bind].

(** Bits of the expressions the macros build. *)
Ltac bits_rewrite :=
  repeat first
    [ rewrite Z.lor_spec | rewrite Z.land_spec | rewrite Z.lxor_spec
    | rewrite convert_testbit by lia
    | rewrite uint_not_testbit by lia
    | rewrite Z.pow2_bits_eqb by lia ].

Ltac bools_decide :=
  repeat match goal with
    | |- context [Z.eqb ?a ?b] => destruct (Z.eqb_spec a b)
    | |- context [Z.ltb ?a ?b] => destruct (Z.ltb_spec a b)
    end;
  repeat match goal with
    | |- context [Z.testbit ?a ?b] => destruct (Z.testbit a b)
    end;
  cbn [andb orb xorb negb]; first [reflexivity | lia | congruence].

(** Two stored values agree when the bits below the width do. *)
Ltac words_agree :=
  f_equal; apply convert_congr; apply Z.bits_inj';
  let n := fresh "n" in
  let Hn := fresh "Hn" in
  intros n Hn; rewrite !mod_pow2_testbit by lia;
  match goal with
  | |- context [n <? ?w] => destruct (Z.ltb_spec n w)
  end; cbn [andb]; [| reflexivity];
  bits_rewrite; bools_decide.



(** X9.  [SET_BIT] changes no other bit of the variable: within the width,
    bit [n] of the result is 1 at the index and the old bit elsewhere. *)
Theorem SET_BIT_bits (t : int_type) (var bit v n : Z) :
  SET_BIT t var bit = Some v -> 0 <= n < it_bits t ->
  Z.testbit v n = if n =? bit then true else Z.testbit var n.
Proof.
  unfold SET_BIT. mask_cases bit; [| discriminate].
  intros [= <-] Hn. bits_rewrite. bools_decide.
Qed.

Lemma SET_BIT_bits_witness :
  Z.testbit 0x85 0 = if 0 =? 7 then true else Z.testbit 0x05 0.
Proof.
  apply (SET_BIT_bits uint8_t 0x05 7 0x85 0);
    [reflexivity | vm_compute; intuition discriminate].
Defined.

(** X10.  [TOGGLE_BIT] flips the bit at the index and changes no other bit
    of the variable. *)
Theorem TOGGLE_BIT_bits (t : int_type) (var bit v n : Z) :
  TOGGLE_BIT t var bit = Some v -> 0 <= n < it_bits t ->
  Z.testbit v n =
    if n =? bit then negb (Z.testbit var n) else Z.testbit var n.
Proof.
  unfold TOGGLE_BIT. mask_cases bit; [| discriminate].
  intros [= <-] Hn. bits_rewrite. bools_decide.
Qed.

Lemma TOGGLE_BIT_bits_witness :
  Z.testbit 0x04 2 =
    if 2 =? 0 then negb (Z.testbit 0x05 2) else Z.testbit 0x05 2.
Proof.
  apply (TOGGLE_BIT_bits uint8_t 0x05 0 0x04 2);
    [reflexivity | vm_compute; intuition discriminate].
Defined.

(** X11.  [CLEAR_BIT] clears the bit at the index and keeps every other
    bit below 32; the bits of the variable from 32 up are cleared as well,
    because the complemented mask has only 32 bits. *)
Theorem CLEAR_BIT_bits (t : int_type) (var bit v n : Z) :
  CLEAR_BIT t var bit = Some v -> 0 <= n < it_bits t ->
  Z.testbit v n =
    if n =? bit then false
    else if n <? UINT_BIT then Z.testbit var n else false.
Proof.
  unfold CLEAR_BIT. mask_cases bit; [| discriminate].
  intros [= <-] Hn. bits_rewrite. bools_decide.
Qed.

Lemma CLEAR_BIT_bits_witness :
  Z.testbit 2 40 =
    if 40 =? 0 then false
    else if 40 <? UINT_BIT then Z.testbit (2 ^ 40 + 3) 40 else false.
Proof.
  apply (CLEAR_BIT_bits uint64_t (2 ^ 40 + 3) 0 2 40);
    [reflexivity | vm_compute; intuition discriminate].
Defined.

Lemma land_uint_not_range (var m : Z) :
  0 <= Z.land var (uint_not m) < 2 ^ UINT_BIT.
Proof.
  assert (E : Z.land var (uint_not m)
              = Z.land var (uint_not m) mod 2 ^ UINT_BIT).
  { apply Z.bits_inj'. intros n Hn.
    rewrite mod_pow2_testbit by (unfold UINT_BIT; lia).
    bits_rewrite. bools_decide. }
  rewrite E. apply Z.mod_pos_bound. reflexivity.
Qed.

(** X12.  On a variable wider than 32 bits [CLEAR_BIT] leaves a value
    below [2^32]: the upper part of the variable is lost together with the
    bit. *)
Theorem CLEAR_BIT_truncates (t : int_type) (var bit v : Z) :
  UINT_BIT < it_bits t -> CLEAR_BIT t var bit = Some v ->
  0 <= v < 2 ^ UINT_BIT.
Proof.
  intros Hw. unfold CLEAR_BIT. mask_cases bit; [| discriminate].
  intros [= <-].
  pose proof (land_uint_not_range var (2 ^ bit)) as HL.
  rewrite convert_id; [exact HL | unfold UINT_BIT in Hw; lia |].
  unfold in_range.
  assert (2 ^ UINT_BIT <= 2 ^ (it_bits t - 1))
    by (apply Z.pow_le_mono_r; lia).
  assert (2 ^ UINT_BIT <= 2 ^ it_bits t)
    by (apply Z.pow_le_mono_r; lia).
  destruct (it_signed t); lia.
Qed.

Lemma CLEAR_BIT_truncates_witness : 0 <= 2 < 2 ^ UINT_BIT.
Proof.
  apply (CLEAR_BIT_truncates uint64_t (2 ^ 40 + 3) 0 2);
    [reflexivity | reflexivity].
Defined.

(** X13.  Setting a bit twice is setting it once, and likewise for
    clearing; clearing after setting is clearing.  Setting after clearing
    is setting as long as the variable has at most 32 bits. *)
Theorem SET_CLEAR_absorb (t : int_type) (var bit : Z) :
  0 < it_bits t ->
  (v <- SET_BIT t var bit ;; SET_BIT t v bit) = SET_BIT t var bit /\
  (v <- CLEAR_BIT t var bit ;; CLEAR_BIT t v bit) = CLEAR_BIT t var bit /\
  (v <- SET_BIT t var bit ;; CLEAR_BIT t v bit) = CLEAR_BIT t var bit /\
  (it_bits t <= UINT_BIT ->
   (v <- CLEAR_BIT t var bit ;; SET_BIT t v bit) = SET_BIT t var bit).
Proof.
  intros Hw. unfold SET_BIT, CLEAR_BIT.
  mask_cases bit; [| repeat split].
  split; [| split; [| split; [| intros H32]]]; words_agree.
Qed.

Lemma SET_CLEAR_absorb_witness :
  (v <- SET_BIT uint8_t 0x05 7 ;; CLEAR_BIT uint8_t v 7)
  = CLEAR_BIT uint8_t 0x05 7 /\
  (v <- CLEAR_BIT uint8_t 0x05 0 ;; SET_BIT uint8_t v 0)
  = SET_BIT uint8_t 0x05 0.
Proof.
  split.
  - apply (SET_CLEAR_absorb uint8_t 0x05 7). reflexivity.
  - apply (SET_CLEAR_absorb uint8_t 0x05 0); [reflexivity | discriminate].
Defined.

(** Where the width matters: on a 64-bit variable, setting after clearing
    is not setting. *)
Example CLEAR_then_SET_uint64_t :
  (v <- CLEAR_BIT uint64_t (2 ^ 40) 0 ;; SET_BIT uint64_t v 0) = Some 1 /\
  SET_BIT uint64_t (2 ^ 40) 0 = Some (2 ^ 40 + 1).
Proof. split; reflexivity. Qed.

(** X14.  Operations on two indices can be done in either order: two
    sets, two clears, two toggles, and a set with a clear of another
    index. *)
Theorem bit_operations_commute (t : int_type) (var i j : Z) :
  0 < it_bits t ->
  (v <- SET_BIT t var i ;; SET_BIT t v j)
  = (v <- SET_BIT t var j ;; SET_BIT t v i) /\
  (v <- CLEAR_BIT t var i ;; CLEAR_BIT t v j)
  = (v <- CLEAR_BIT t var j ;; CLEAR_BIT t v i) /\
  (v <- TOGGLE_BIT t var i ;; TOGGLE_BIT t v j)
  = (v <- TOGGLE_BIT t var j ;; TOGGLE_BIT t v i) /\
  (i <> j ->
   (v <- SET_BIT t var i ;; CLEAR_BIT t v j)
   = (v <- CLEAR_BIT t var j ;; SET_BIT t v i)).
Proof.
  intros Hw. unfold SET_BIT, CLEAR_BIT, TOGGLE_BIT.
  mask_cases i; mask_cases j; try (repeat split; fail).
  split; [| split; [| split; [| intros Hij]]]; words_agree.
Qed.

Lemma bit_operations_commute_witness :
  (v <- SET_BIT uint8_t 0 1 ;; CLEAR_BIT uint8_t v 2)
  = (v <- CLEAR_BIT uint8_t 0 2 ;; SET_BIT uint8_t v 1).
Proof.
  apply (bit_operations_commute uint8_t 0 1 2); [reflexivity | discriminate].
Defined.

(** X15.  An index at or beyond the width of a narrow variable, still
    below 32, is accepted and does nothing: the variable keeps its value. *)
Theorem bit_beyond_width_noop (t : int_type) (var bit : Z) :
  0 < it_bits t -> in_range t var -> it_bits t <= bit < UINT_BIT ->
  SET_BIT t var bit = Some var /\ CLEAR_BIT t var bit = Some var /\
  TOGGLE_BIT t var bit = Some var.
Proof.
  intros Hw Hv Hb. unfold SET_BIT, CLEAR_BIT, TOGGLE_BIT.
  rewrite shl_1U_defined by lia. cbn [bind].
  pose proof (convert_id t Hw var Hv) as Hid.
  split; [| split];
    (transitivity (Some (convert t var)); [words_agree | now f_equal]).
Qed.

Lemma bit_beyond_width_noop_witness :
  SET_BIT uint8_t 0x05 10 = Some 0x05 /\
  CLEAR_BIT uint8_t 0x05 10 = Some 0x05 /\
  TOGGLE_BIT uint8_t 0x05 10 = Some 0x05.
Proof.
  apply (bit_beyond_width_noop uint8_t 0x05 10);
    vm_compute; intuition discriminate.
Defined.

(** Above the magnitude of a number every bit is its sign. *)
Lemma testbit_sign (x n : Z) :
  0 <= n -> - 2 ^ n <= x < 2 ^ n -> Z.testbit x n = (x <? 0).
Proof.
  intros Hn Hx. destruct (Z.ltb_spec x 0) as [Hneg | Hpos].
  - rewrite <- (Z.lnot_involutive x), Z.lnot_spec by assumption.
    rewrite <- (Z.mod_small (Z.lnot x) (2 ^ n))
      by (unfold Z.lnot; rewrite <- Z.sub_1_r; lia).
    rewrite Z.mod_pow2_bits_high by lia. reflexivity.
  - rewrite <- (Z.mod_small x (2 ^ n)) by lia.
    apply Z.mod_pow2_bits_high. lia.
Qed.

(** X16.  Testing an index at or beyond the width of a narrow variable
    reads its sign: [IS_BIT_SET] holds exactly for a negative value, so
    never for a variable of an unsigned type. *)
Theorem IS_BIT_SET_beyond_width (t : int_type) (var bit : Z) :
  0 < it_bits t -> in_range t var -> it_bits t <= bit < UINT_BIT ->
  IS_BIT_SET var bit = Some (var <? 0) /\
  IS_BIT_CLEAR var bit = Some (0 <=? var) /\
  (it_signed t = false -> IS_BIT_SET var bit = Some false).
Proof.
  intros Hw Hv Hb. unfold IS_BIT_SET, IS_BIT_CLEAR.
  rewrite shl_1U_defined by lia. cbn [bind].
  rewrite land_pow2_eqb, negb_involutive by lia.
  assert (Hs : Z.testbit var bit = (var <? 0)).
  { apply testbit_sign; [lia |].
    assert (2 ^ it_bits t <= 2 ^ bit) by (apply Z.pow_le_mono_r; lia).
    assert (2 ^ (it_bits t - 1) <= 2 ^ bit) by (apply Z.pow_le_mono_r; lia).
    unfold in_range in Hv. destruct (it_signed t); lia. }
  rewrite Hs. split; [reflexivity | split].
  - f_equal. destruct (Z.ltb_spec var 0), (Z.leb_spec 0 var);
      first [reflexivity | lia].
  - intros Hu. f_equal. apply Z.ltb_ge.
    unfold in_range in Hv. rewrite Hu in Hv. lia.
Qed.

Lemma IS_BIT_SET_beyond_width_witness :
  IS_BIT_SET (-1) 20 = Some (-1 <? 0) /\
  IS_BIT_CLEAR (-1) 20 = Some (0 <=? -1) /\
  (it_signed int8_t = false -> IS_BIT_SET (-1) 20 = Some false).
Proof.
  apply (IS_BIT_SET_beyond_width int8_t (-1) 20);
    vm_compute; intuition discriminate.
Defined.

(** X17.  Toggling a bit that tests clear is setting it; toggling a bit
    that tests set is clearing it, on a variable of at most 32 bits. *)
Theorem TOGGLE_BIT_as_SET_CLEAR (t : int_type) (var bit : Z) :
  0 < it_bits t ->
  (IS_BIT_CLEAR var bit = Some true ->
   TOGGLE_BIT t var bit = SET_BIT t var bit) /\
  (IS_BIT_SET var bit = Some true -> it_bits t <= UINT_BIT ->
   TOGGLE_BIT t var bit = CLEAR_BIT t var bit).
Proof.
  intros Hw.
  unfold IS_BIT_CLEAR, IS_BIT_SET, TOGGLE_BIT, SET_BIT, CLEAR_BIT.
  mask_cases bit; [| split; discriminate].
  rewrite land_pow2_eqb by lia. rewrite negb_involutive.
  split.
  - intros [= Hbit]. apply negb_true_iff in Hbit.
    f_equal. apply convert_congr. f_equal.
    apply Z.bits_inj'. intros n Hn. bits_rewrite.
    destruct (Z.eqb_spec bit n) as [<- |]; [rewrite Hbit |];
      destruct (Z.testbit var _); reflexivity.
  - intros [= Hbit] H32.
    f_equal. apply convert_congr. apply Z.bits_inj'. intros n Hn.
    rewrite !mod_pow2_testbit by lia.
    destruct (Z.ltb_spec n (it_bits t)); cbn [andb]; [| reflexivity].
    bits_rewrite.
    destruct (Z.eqb_spec bit n) as [<- |]; [rewrite Hbit |]; bools_decide.
Qed.

Lemma TOGGLE_BIT_as_SET_CLEAR_witness :
  TOGGLE_BIT uint8_t 0x05 1 = SET_BIT uint8_t 0x05 1 /\
  TOGGLE_BIT uint8_t 0x05 0 = CLEAR_BIT uint8_t 0x05 0.
Proof.
  split.
  - apply (TOGGLE_BIT_as_SET_CLEAR uint8_t 0x05 1); reflexivity.
  - apply (TOGGLE_BIT_as_SET_CLEAR uint8_t 0x05 0);
      [reflexivity | reflexivity | discriminate].
Defined.

(** ** Status codes *)

(** X18.  The values of [i_status] increase strictly in declaration
    order. *)
Theorem i_status_increasing : StronglySorted Z.lt (map e_value i_status).
Proof.
  unfold i_status. cbn [map e_value].
  repeat (apply SSorted_cons;
          [| repeat (apply Forall_cons; [reflexivity |]); apply Forall_nil]).
  apply SSorted_nil.
Qed.

Lemma i_status_name_counts :
  forallb
    (fun e =>
       Nat.eqb (List.length (values_of (e_name e) i_status))
               (if String.eqb (e_name e) "STATUS_BUSY" then 2 else 1))
    i_status = true.
Proof. vm_compute. reflexivity. Qed.

(** X19.  [STATUS_BUSY] is the only name declared more than once: it has
    two values, every other name of [i_status] has one. *)
Theorem i_status_only_BUSY_repeated (e : enumerator) :
  In e i_status ->
  List.length (values_of (e_name e) i_status)
  = if String.eqb (e_name e) "STATUS_BUSY" then 2%nat else 1%nat.
Proof.
  intros H. apply Nat.eqb_eq.
  exact (proj1 (forallb_forall _ _) i_status_name_counts e H).
Qed.

Lemma i_status_only_BUSY_repeated_witness :
  List.length (values_of "STATUS_OK" i_status) = 1%nat.
Proof.
  apply (i_status_only_BUSY_repeated (Enumerator GeneralStatus "STATUS_OK" 0x01)).
  left. reflexivity.
Defined.

(** X20.  A numeric value belongs to at most one enumerator of
    [i_status]: two enumerators of equal value are the same one. *)
Theorem i_status_value_determines (e1 e2 : enumerator) :
  In e1 i_status -> In e2 i_status -> e_value e1 = e_value e2 -> e1 = e2.
Proof.
  intros H1 H2 Hv.
  apply (NoDup_map_inj e_value i_status);
    [exact i_status_values_NoDup | assumption ..].
Qed.

Lemma i_status_value_determines_witness :
  Enumerator ActivityStates "STATUS_BUSY" 0x37
  = Enumerator ActivityStates "STATUS_BUSY" (0x30 + 7).
Proof.
  apply (i_status_value_determines
           (Enumerator ActivityStates "STATUS_BUSY" 0x37)
           (Enumerator ActivityStates "STATUS_BUSY" (0x30 + 7)));
    [| | reflexivity];
    unfold i_status; cbn [In]; repeat (first [left; reflexivity | right]).
Defined.

(** X21.  The upper nibble of a status value tells its group: two
    enumerators whose values agree above the low four bits are in the same
    group. *)
Theorem i_status_nibble_group (e1 e2 : enumerator) :
  In e1 i_status -> In e2 i_status ->
  Z.shiftr (e_value e1) 4 = Z.shiftr (e_value e2) 4 ->
  e_group e1 = e_group e2.
Proof.
  intros H1 H2.
  unfold i_status in H1, H2. cbn [In] in H1, H2.
  repeat (destruct H1 as [<- | H1]); [.. | contradiction];
    repeat (destruct H2 as [<- | H2]); try contradiction;
    cbn; intros E; first [reflexivity | discriminate E].
Qed.

Lemma i_status_nibble_group_witness :
  e_group (Enumerator DebugAndWarnings "STATUS_DEBUG_1" 0xE1)
  = e_group (Enumerator DebugAndWarnings "STATUS_DEBUG_3" 0xE3).
Proof.
  apply (i_status_nibble_group
           (Enumerator DebugAndWarnings "STATUS_DEBUG_1" 0xE1)
           (Enumerator DebugAndWarnings "STATUS_DEBUG_3" 0xE3));
    [| | reflexivity];
    unfold i_status; cbn [In]; repeat (first [left; reflexivity | right]).
Defined.

(** ** Variable type tags *)

(** X22.  A tag's value is composed of its facets: the width in bytes,
    plus 0x10 when signed, plus 0x20 when an array; so an array tag is its
    scalar tag with bit 0x20 added. *)
Theorem var_type_value_composed (t : var_type) :
  var_type_value t
  = name_width t + (if name_signed t then 0x10 else 0)
    + (if name_array t then 0x20 else 0).
Proof. destruct t; reflexivity. Qed.

(** X23.  Every combination of a width of 1, 2, 4 or 8 bytes, a
    signedness and scalar or array has a tag. *)
Theorem var_type_complete (w : Z) (s a : bool) :
  In w [1; 2; 4; 8] ->
  exists t : var_type,
    name_width t = w /\ name_signed t = s /\ name_array t = a.
Proof.
  cbn [In]. intros [<- | [<- | [<- | [<- | []]]]]; destruct s, a;
    [ exists VAR_TYPE_I8_ARR | exists VAR_TYPE_I8
    | exists VAR_TYPE_U8_ARR | exists VAR_TYPE_U8
    | exists VAR_TYPE_I16_ARR | exists VAR_TYPE_I16
    | exists VAR_TYPE_U16_ARR | exists VAR_TYPE_U16
    | exists VAR_TYPE_I32_ARR | exists VAR_TYPE_I32
    | exists VAR_TYPE_U32_ARR | exists VAR_TYPE_U32
    | exists VAR_TYPE_I64_ARR | exists VAR_TYPE_I64
    | exists VAR_TYPE_U64_ARR | exists VAR_TYPE_U64 ];
    repeat split.
Qed.

Lemma var_type_complete_witness :
  exists t : var_type,
    name_width t = 4 /\ name_signed t = true /\ name_array t = true.
Proof.
  apply (var_type_complete 4 true true). cbn [In]. tauto.
Defined.
